(** * FS-Nav: the alias table of [fsnav/core.py] and the [count] utility

    A shallow embedding of the class [Aliases] (a [dict] subclass whose
    [__setitem__] validates every binding) and of the function [count].

    - An [Aliases] instance is a mutable object: it lives in a heap of
      dictionaries and is referred to by its location.  Methods are
      computations in a state-and-exception monad over that heap; a raised
      exception keeps the heap as it was when the exception was raised.
    - The operating system ([os.path.expanduser], [os.path.isdir],
      [os.access], [os.path.exists], [glob.glob]) is a record of functions:
      one value of [OS] is one state of the file system and the process
      environment.
    - A dictionary given to a method as an argument keeps the order of its
      items ([pydict]): loops over it visit the items in that order.
    - [fsnav/settings.py] is not among the sources.  [DEFAULT_ALIASES] is a
      parameter; [ALIAS_REGEX] is modelled from the specification. *)

From Stdlib Require Import Ascii String.
From stdpp Require Import base option list strings gmap fin_maps fin_sets.

Local Open Scope string_scope.

(** ** The operating system *)

Record OS : Type := MkOS {
  expanduser  : string → string;        (* os.path.expanduser(path) *)
  isdir       : string → bool;          (* os.path.isdir(path) *)
  access_X_OK : string → bool;          (* os.access(path, os.X_OK) *)
  path_exists : string → bool;          (* os.path.exists(path) *)
  glob        : string → list string    (* glob.glob(path) *)
}.

(** ** Exceptions and the heap monad *)

Inductive exn : Type :=
  | ValueError (msg : string)
  | KeyError (msg : string)
  | TypeError (msg : string).

Inductive outcome (A : Type) : Type :=
  | Return (a : A)
  | Raise (e : exn).
Arguments Return {A} a.
Arguments Raise {A} e.

(** Locations of [dict] objects; the contents of a [dict] is a finite map
    from alias to path. *)
Abbreviation loc := positive (only parsing).
Abbreviation heap := (gmap positive (gmap string string)) (only parsing).

Definition M (A : Type) : Type := heap → outcome A * heap.

Definition ret {A} (a : A) : M A := λ h, (Return a, h).
Definition raise {A} (e : exn) : M A := λ h, (Raise e, h).
Definition bind {A B} (m : M A) (k : A → M B) : M B :=
  λ h, match m h with
       | (Return a, h') => k a h'
       | (Raise e, h') => (Raise e, h')
       end.

Declare Scope py_scope.
Delimit Scope py_scope with py.
Notation "x ⇐ m ;; k" := (bind m (λ x, k))
  (at level 100, m at next level, right associativity) : py_scope.
Notation "m ;;; k" := (bind m (λ _, k))
  (at level 100, right associativity) : py_scope.
Local Open Scope py_scope.

(** [for x in l: body x] *)
Fixpoint for_each {A} (l : list A) (body : A → M unit) : M unit :=
  match l with
  | [] => ret tt
  | x :: l' => body x ;;; for_each l' body
  end.

(** The contents of the object at [self]. *)
Definition deref (h : heap) (self : loc) : gmap string string :=
  default ∅ (h !! self).

(** [dict.__getitem__(self, alias)] *)
Definition dict_getitem (self : loc) (alias : string) : M string :=
  λ h, match deref h self !! alias with
       | Some path => (Return path, h)
       | None => (Raise (KeyError alias), h)
       end.

(** [dict.__setitem__(self, alias, path)] *)
Definition dict_setitem (self : loc) (alias path : string) : M unit :=
  λ h, (Return tt, <[self := <[alias := path]> (deref h self)]> h).

(** [dict.items(self)], a snapshot of the bindings *)
Definition dict_items (self : loc) : M (gmap string string) :=
  λ h, (Return (deref h self), h).

(** [dict.__new__(cls)]: a new, empty dictionary *)
Definition dict_new : M loc :=
  λ h, let self := fresh (dom h) in (Return self, <[self := ∅]> h).

(** ** Dictionaries given as arguments *)

(** A Python dictionary from alias to path, as a method receives it: its items
    in the dictionary's own iteration order; no key occurs twice. *)
Record pydict : Type := PyDict {
  items_of : list (string * option string);
  keys_unique : bool_decide (NoDup items_of.*1) = true
}.

(** [d[key]], when the key is present *)
Global Instance pydict_lookup : Lookup string (option string) pydict :=
  λ key d, (list_to_map (items_of d) : gmap string (option string)) !! key.

(** [{}] *)
Global Instance pydict_empty : Empty pydict := PyDict [] eq_refl.

(** The dictionary of the keyword arguments left once the one named [key] is
    bound to a parameter: the other items, in their order. *)
Program Definition pydict_delete (key : string) (d : pydict) : pydict :=
  PyDict (filter (λ item, item.1 ≠ key) (items_of d)) _.
Next Obligation.
  intros key d. apply bool_decide_eq_true_2.
  apply (sublist_NoDup _ (items_of d).*1).
  - apply (bool_decide_eq_true_1 _), keys_unique.
  - apply fmap_sublist, sublist_filter.
Qed.

(** The items of a table, whose values are all strings, as a dictionary
    argument.  The heap keeps a table as a finite map, without the order of
    its items; they are listed in the order of the map. *)
Definition pydict_of_table (d : gmap string string) : pydict :=
  PyDict (map_to_list (Some <$> d))
         (bool_decide_eq_true_2 _ (NoDup_fst_map_to_list (Some <$> d))).

(** ** Settings *)

(** Modelled from the spec: [settings.ALIAS_REGEX] ([fsnav/settings.py] is
    not among the sources).  The specification fixes the pattern as one or
    more characters from [[A-Za-z0-9_-]], with no other character anywhere
    in the alias. *)
Definition alias_char (c : ascii) : bool :=
  let n := nat_of_ascii c in
  ((65 <=? n)%nat && (n <=? 90)%nat) || ((97 <=? n)%nat && (n <=? 122)%nat)
  || ((48 <=? n)%nat && (n <=? 57)%nat) || (n =? 95)%nat || (n =? 45)%nat.

(** [re.match(settings.ALIAS_REGEX, alias) is not None] *)
Definition re_match_ALIAS_REGEX (alias : string) : bool :=
  match alias with
  | EmptyString => false
  | _ => forallb alias_char (list_ascii_of_string alias)
  end.

(** ** Class [Aliases] *)

(** What [update] can receive as [alias_iterable]: a dictionary, a sequence of
    pairs, or a string, which is what a keyword argument named
    [alias_iterable] puts there. *)
Inductive iterable : Type :=
  | Mapping (m : pydict)                            (* has a [keys] attribute *)
  | Pairs (l : list (string * option string))       (* a sequence of pairs *)
  | Str (s : string).                               (* a sequence of characters *)

Definition truthy (it : iterable) : bool :=
  match it with
  | Mapping m => negb (bool_decide (items_of m = []))
  | Pairs l => negb (bool_decide (l = []))
  | Str s => negb (bool_decide (s = ""))
  end.

Definition path_error (path : string) : exn :=
  ValueError ("Can't access path: '" ++ path ++ "'").

Definition alias_error (alias : string) : exn :=
  KeyError ("Aliases can only contain alphanumeric characters and '-' or '_': '"
            ++ alias ++ "'").

Definition none_error : exn := ValueError "Path cannot be NoneType".

(** [(alias, path) = c] for a one-character string [c] *)
Definition unpack_error : exn := ValueError "need more than 1 value to unpack".

(** A keyword argument that names a parameter already given by position. *)
Definition multiple_values (method param : string) : exn :=
  TypeError (method ++ "() got multiple values for keyword argument '"
             ++ param ++ "'").

Section Aliases.

Context (os : OS).
(** [settings.DEFAULT_ALIASES], a dictionary whose keys are the default
    alias names. *)
Context (DEFAULT_ALIASES : gmap string string).

(** [Aliases.__setitem__] *)
Definition setitem (self : loc) (alias : string) (path : option string)
  : M unit :=
  match path with
  | None => raise none_error
  | Some path =>
      let path := expanduser os path in
      if negb (re_match_ALIAS_REGEX alias) then
        raise (alias_error alias)
      else if negb (isdir os path) && negb (access_X_OK os path) then
        raise (path_error path)
      else
        dict_setitem self alias path
  end.

(** [Aliases.as_dict] *)
Definition as_dict (self : loc) : M (gmap string string) :=
  dict_items self.

(** [Aliases.setdefault] *)
Definition setdefault (self : loc) (alias : string) (path : option string)
  : M string :=
  (λ h, match dict_getitem self alias h with
        | (Return _, h') => (Return tt, h')
        | (Raise (KeyError _), h') => setitem self alias path h'
        | (Raise e, h') => (Raise e, h')
        end) ;;;
  dict_getitem self alias.

(** [alias_iterable[alias]] for a mapping argument *)
Definition mapping_getitem (m : pydict) (alias : string)
  : M (option string) :=
  match m !! alias with
  | Some path => ret path
  | None => raise (KeyError alias)
  end.

(** [Aliases.update], the body: [alias_path] is the dictionary of the keyword
    arguments that name no parameter.  The loops visit a dictionary in its
    own order. *)
Definition update (self : loc) (alias_iterable : option iterable)
    (alias_path : pydict) : M unit :=
  match alias_iterable with
  | Some (Mapping m) =>
      if truthy (Mapping m) then
        for_each (items_of m).*1 (λ alias,
          path ⇐ mapping_getitem m alias ;; setitem self alias path)
      else ret tt
  | Some (Pairs l) =>
      if truthy (Pairs l) then
        for_each l (λ '(alias, path), setitem self alias path)
      else ret tt
  | Some (Str s) =>
      if truthy (Str s) then
        for_each (list_ascii_of_string s) (λ _, raise unpack_error)
      else ret tt
  | None => ret tt
  end ;;;
  for_each (items_of alias_path) (λ '(alias, path),
    setitem self alias path).

(** The call [self.update( *args, **kwargs)]: the arguments are bound to the
    parameters [(self, alias_iterable=None, **alias_path)], then the body
    runs.  [args] is the dictionary or sequence given for [alias_iterable],
    by position or under its name, if there is one; [kwargs] holds the
    keyword arguments whose values are paths (strings or [None]), so that
    [update(alias_iterable={...})] is [call_update self (Some (Mapping ...)) ∅].
    A path under the name [alias_iterable] is bound to the parameter as well;
    beside a dictionary or sequence given for it, it is one value too many. *)
Definition call_update (self : loc) (args : option iterable)
    (kwargs : pydict) : M unit :=
  if bool_decide (is_Some (kwargs !! "self")) then
    raise (multiple_values "update" "self")
  else
    match kwargs !! "alias_iterable" with
    | None => update self args kwargs
    | Some v =>
        match args with
        | Some _ => raise (multiple_values "update" "alias_iterable")
        | None => update self (Str <$> v) (pydict_delete "alias_iterable" kwargs)
        end
    end.

(** [Aliases.__init__(self, *args, **kwargs)] *)
Definition init (self : loc) (args : option iterable)
    (kwargs : pydict) : M unit :=
  if bool_decide (is_Some (kwargs !! "self")) then
    raise (multiple_values "__init__" "self")
  else
    (* dict.__init__(self) leaves the new dictionary empty *)
    call_update self args kwargs.

(** [Aliases( *args, **kwargs)]: allocation, then [__init__] *)
Definition Aliases (args : option iterable)
    (kwargs : pydict) : M loc :=
  self ⇐ dict_new ;;
  init self args kwargs ;;;
  ret self.

(** [Aliases.copy] *)
Definition copy (self : loc) : M loc :=
  d ⇐ as_dict self ;;
  Aliases None (pydict_of_table d).

(** [Aliases.user_defined] *)
Definition user_defined (self : loc) : M loc :=
  items ⇐ dict_items self ;;
  Aliases
    (Some (Mapping (pydict_of_table
       (filter (λ ap, ¬ is_Some (DEFAULT_ALIASES !! ap.1)) items))))
    ∅.

(** [Aliases.default] *)
Definition default_ (self : loc) : M loc :=
  items ⇐ dict_items self ;;
  Aliases
    (Some (Mapping (pydict_of_table
       (filter (λ ap, is_Some (DEFAULT_ALIASES !! ap.1)) items))))
    ∅.

(** ** [count] *)

(** ['~' in path] *)
Fixpoint has_tilde (path : string) : bool :=
  match path with
  | EmptyString => false
  | String c rest => Ascii.eqb c "~" || has_tilde rest
  end.

(** The list [expanded] that the loop of [count] builds. *)
Definition expanded (items_to_count : list string) : list string :=
  foldl (λ (expanded : list string) path,
           let path := if has_tilde path then expanduser os path else path in
           foldl (λ expanded p, (expanded ++ [p])%list) expanded (glob os path))
        [] items_to_count.

Definition count (items_to_count : list string) : nat :=
  size (list_to_set
          (filter (λ p, path_exists os p = true) (expanded items_to_count))
        : gset string).

End Aliases.

Arguments has_tilde !path /.

(** ** Derived notions used to state the properties *)

(** The entries a call [update(alias_iterable, **alias_path)] visits, in the
    order in which it visits them. *)
Definition entries (alias_iterable : option iterable)
    (alias_path : pydict) : list (string * option string) :=
  match alias_iterable with
  | Some (Mapping m) => items_of m
  | Some (Pairs l) => l
  | Some (Str _) | None => []
  end ++ items_of alias_path.

Definition is_str (alias_iterable : option iterable) : bool :=
  match alias_iterable with
  | Some (Str _) => true
  | _ => false
  end.

(** The arguments on which [__setitem__] reaches [dict.__setitem__]. *)
Definition accepted (os : OS) (e : string * option string) : bool :=
  match e.2 with
  | None => false
  | Some path =>
      re_match_ALIAS_REGEX e.1
      && (isdir os (expanduser os path) || access_X_OK os (expanduser os path))
  end.

(** The effect of an accepted entry on the contents of the table. *)
Definition commit (os : OS) (d : gmap string string) (e : string * option string)
  : gmap string string :=
  match e.2 with
  | Some path => <[e.1 := expanduser os path]> d
  | None => d
  end.

(** A binding that [__setitem__] would store again as it is: the alias matches,
    the path is in expanded form and passes the path check. *)
Definition valid_binding (os : OS) (alias path : string) : bool :=
  accepted os (alias, Some path) && String.eqb (expanduser os path) path.

Definition valid_table (os : OS) (d : gmap string string) : Prop :=
  map_Forall (λ alias path, valid_binding os alias path = true) d.

(** No alias of the table is the name of a parameter of [__init__] or
    [update]. *)
Definition no_parameter_name (m : gmap string string) : Prop :=
  m !! "self" = None ∧ m !! "alias_iterable" = None.

(** The partition law for the table at [self]: [user_defined] and then
    [default] return two tables [u] and [v]; the bindings of [u] and [v]
    together are those of the table, no alias is bound in both, and a binding
    of the table lies in [v] when its alias is a key of [DEFAULT_ALIASES] and
    in [u] otherwise.  The table itself is as before. *)
Definition partition_law (os : OS) (DEFAULT_ALIASES : gmap string string)
    (self : loc) (h : heap) : Prop :=
  ∃ u v h1 h2,
    user_defined os DEFAULT_ALIASES self h = (Return u, h1)
    ∧ default_ os DEFAULT_ALIASES self h1 = (Return v, h2)
    ∧ deref h2 self = deref h self
    ∧ deref h2 u ∪ deref h2 v = deref h self
    ∧ deref h2 u ##ₘ deref h2 v
    ∧ (∀ alias path, deref h self !! alias = Some path →
         if decide (is_Some (DEFAULT_ALIASES !! alias))
         then deref h2 v !! alias = Some path ∧ deref h2 u !! alias = None
         else deref h2 u !! alias = Some path ∧ deref h2 v !! alias = None).

(** The invariant of the class in one state of the file system: every
    binding of the table has an alias that matches the pattern and a path that
    is a directory or can be executed. *)
Definition checked_binding (os : OS) (alias path : string) : bool :=
  re_match_ALIAS_REGEX alias && (isdir os path || access_X_OK os path).

Definition checked_table (os : OS) (d : gmap string string) : Prop :=
  map_Forall (λ alias path, checked_binding os alias path = true) d.

Definition checked_heap (os : OS) (h : heap) : Prop :=
  map_Forall (λ _ d, checked_table os d) h.

(** ** A small file system for examples

    [/home/u] and [/tmp] are directories that can be entered; [/locked] is a
    directory without the execute permission; [/bin/ls] is an executable
    regular file; [/etc/hosts] is a plain file. *)

Definition mem (p : string) (l : list string) : bool :=
  existsb (String.eqb p) l.

Definition demo_expanduser (path : string) : string :=
  match path with
  | String "~" EmptyString => "/home/u"
  | String "~" (String "/" rest) => "/home/u/" ++ rest
  | _ => path
  end.

Definition demo_dirs : list string :=
  ["/"; "/home"; "/home/u"; "/home/u/"; "/tmp"; "/locked"; "/bin"; "/etc"].

Definition demo_files : list string := ["/bin/ls"; "/etc/hosts"].

Definition demo_os : OS := {|
  expanduser := demo_expanduser;
  isdir p := mem p demo_dirs;
  access_X_OK p := mem p ["/"; "/home"; "/home/u"; "/home/u/"; "/tmp"; "/bin";
                          "/etc"; "/bin/ls"];
  path_exists p := mem p (demo_dirs ++ demo_files);
  glob p :=
    if String.eqb p "/*" then ["/bin"; "/etc"; "/home"; "/locked"; "/tmp"]
    else if mem p (demo_dirs ++ demo_files) then [p] else []
|}.

(** The same machine after [/tmp] has been removed. *)
Definition demo_os_later : OS := {|
  expanduser := demo_expanduser;
  isdir p := mem p ["/"; "/home"; "/home/u"; "/home/u/"; "/locked"; "/bin"; "/etc"];
  access_X_OK p := mem p ["/"; "/home"; "/home/u"; "/home/u/"; "/bin"; "/etc";
                          "/bin/ls"];
  path_exists p := mem p ["/"; "/home"; "/home/u"; "/home/u/"; "/locked"; "/bin";
                          "/etc"; "/bin/ls"; "/etc/hosts"];
  glob p :=
    if String.eqb p "/*" then ["/bin"; "/etc"; "/home"; "/locked"]
    else if mem p ["/"; "/home"; "/home/u"; "/home/u/"; "/locked"; "/bin";
                   "/etc"; "/bin/ls"; "/etc/hosts"] then [p] else []
|}.

Definition demo_defaults : gmap string string :=
  {[ "home" := "/home/u"; "tmp" := "/tmp" ]}.

(** A heap with one empty table at location [1]. *)
Definition demo_heap : heap := {[ 1%positive := ∅ ]}.

(** * Properties *)

(** ** Dictionaries given as arguments *)

Lemma pydict_keys_NoDup (d : pydict) : NoDup (items_of d).*1.
Proof. apply (bool_decide_eq_true_1 _), keys_unique. Qed.

Lemma pydict_lookup_items (d : pydict) (key : string) (v : option string) :
  d !! key = Some v ↔ (key, v) ∈ items_of d.
Proof.
  unfold lookup, pydict_lookup. symmetry.
  apply elem_of_list_to_map, pydict_keys_NoDup.
Qed.

Lemma pydict_lookup_None (d : pydict) (key : string) :
  d !! key = None ↔ key ∉ (items_of d).*1.
Proof. unfold lookup, pydict_lookup. symmetry. apply not_elem_of_list_to_map. Qed.

Lemma pydict_lookup_of_table (d : gmap string string) (key : string) :
  pydict_of_table d !! key = Some <$> d !! key.
Proof.
  unfold lookup at 1, pydict_lookup. simpl.
  by rewrite list_to_map_to_list, lookup_fmap.
Qed.

Lemma pydict_delete_keys (key : string) (d : pydict) :
  key ∉ (items_of (pydict_delete key d)).*1.
Proof.
  simpl. intros Hin. apply list_elem_of_fmap in Hin as ([a q] & Ha & Hin).
  apply list_elem_of_filter in Hin as [Hne _]. simpl in *. by subst.
Qed.

(** ** [__setitem__] *)

Section setitem_facts.

Context (os : OS).
Implicit Types (h : heap) (self : loc) (alias path : string).

Lemma setitem_accepted self alias p h :
  accepted os (alias, p) = true →
  setitem os self alias p h
  = (Return tt, <[self := commit os (deref h self) (alias, p)]> h).
Proof.
  unfold accepted, commit, setitem; simpl.
  destruct p as [path|]; [|done].
  intros [Hre Hp]%andb_true_iff. rewrite Hre; simpl.
  apply orb_true_iff in Hp.
  destruct (isdir os (expanduser os path)), (access_X_OK os (expanduser os path));
    simpl; try reflexivity.
  destruct Hp; discriminate.
Qed.

Lemma setitem_rejected self alias p h :
  accepted os (alias, p) = false →
  ∃ e, setitem os self alias p h = (Raise e, h).
Proof.
  unfold accepted, setitem; simpl.
  destruct p as [path|]; [|by eexists].
  destruct (re_match_ALIAS_REGEX alias); simpl; [|by eexists].
  intros [-> ->]%orb_false_iff; simpl. by eexists.
Qed.

(** [__setitem__] either stores the binding or leaves the heap alone. *)
Lemma setitem_raise_unchanged self alias p h e h' :
  setitem os self alias p h = (Raise e, h') → h' = h.
Proof.
  destruct (accepted os (alias, p)) eqn:Hacc.
  - rewrite (setitem_accepted _ _ _ _ Hacc). discriminate.
  - destruct (setitem_rejected self alias p h Hacc) as [e' ->]. congruence.
Qed.

Lemma re_match_spec alias :
  re_match_ALIAS_REGEX alias = true ↔
  alias ≠ "" ∧ Forall (λ c, alias_char c = true) (list_ascii_of_string alias).
Proof.
  unfold re_match_ALIAS_REGEX. destruct alias as [|c s].
  - split; [discriminate | by intros [? _]].
  - rewrite forallb_forall, Forall_forall.
    setoid_rewrite list_elem_of_In. split; [by intros; split | by intros [_ ?]].
Qed.

End setitem_facts.

(** C1 (evaluation at the failing input).  The path check of [__setitem__]
    raises only when the path is neither a directory nor executable: the
    directory [/locked], which the process cannot enter, is stored, and so is
    the executable regular file [/bin/ls]. *)
Theorem C1_setitem_stores_inaccessible_directory :
  isdir demo_os (expanduser demo_os "/locked") = true
  ∧ access_X_OK demo_os (expanduser demo_os "/locked") = false
  ∧ setitem demo_os 1%positive "work" (Some "/locked") demo_heap
    = (Return tt, {[ 1%positive := {[ "work" := "/locked" ]} ]})
  ∧ isdir demo_os (expanduser demo_os "/bin/ls") = false
  ∧ setitem demo_os 1%positive "ls" (Some "/bin/ls") demo_heap
    = (Return tt, {[ 1%positive := {[ "ls" := "/bin/ls" ]} ]}).
Proof. repeat split; vm_compute; reflexivity. Qed.

(** C2.  An alias with a character outside [[A-Za-z0-9_-]] makes
    [__setitem__] raise the alias error ([KeyError], the specification's
    InvalidAliasError) for every path, and the heap is unchanged. *)
Theorem C2_invalid_alias_rejected (os : OS) (self : loc) (alias path : string)
    (h : heap) :
  (∃ c, c ∈ list_ascii_of_string alias ∧ alias_char c = false) →
  setitem os self alias (Some path) h = (Raise (alias_error alias), h).
Proof.
  intros (c & Hin & Hc). unfold setitem.
  destruct (re_match_ALIAS_REGEX alias) eqn:Hre; [|reflexivity].
  apply re_match_spec in Hre as [_ Hall].
  rewrite Forall_forall in Hall. specialize (Hall c Hin). congruence.
Qed.

Lemma C2_invalid_alias_rejected_witness :
  setitem demo_os 1%positive "my alias" (Some "/tmp") demo_heap
  = (Raise (alias_error "my alias"), demo_heap).
Proof.
  apply C2_invalid_alias_rejected.
  exists " "%char. split; [|reflexivity].
  simpl. do 2 apply list_elem_of_further. apply list_elem_of_here.
Defined.

(** C3.  For an alias made of one or more characters of [[A-Za-z0-9_-]] and a
    path whose expansion is a directory the process can enter, [__setitem__]
    returns, binds the alias to the expanded path and leaves every other
    binding alone; looking the alias up then returns the expanded path. *)
Theorem C3_valid_insert_then_lookup (os : OS) (self : loc) (alias path : string)
    (h : heap) :
  alias ≠ "" →
  Forall (λ c, alias_char c = true) (list_ascii_of_string alias) →
  isdir os (expanduser os path) = true →
  access_X_OK os (expanduser os path) = true →
  ∃ h',
    setitem os self alias (Some path) h = (Return tt, h')
    ∧ dict_getitem self alias h' = (Return (expanduser os path), h')
    ∧ deref h' self = <[alias := expanduser os path]> (deref h self).
Proof.
  intros Hne Hall Hdir Hacc.
  assert (Hok : accepted os (alias, Some path) = true).
  { unfold accepted; simpl. rewrite Hdir; simpl.
    rewrite andb_true_r. apply re_match_spec. by split. }
  eexists. split; [apply (setitem_accepted os _ _ _ _ Hok)|].
  unfold dict_getitem, deref, commit; simpl.
  rewrite !lookup_insert_eq; simpl. by rewrite lookup_insert_eq.
Qed.

Lemma C3_valid_insert_then_lookup_witness :
  ∃ h',
    setitem demo_os 1%positive "home" (Some "~/") demo_heap = (Return tt, h')
    ∧ dict_getitem 1%positive "home" h' = (Return "/home/u/", h')
    ∧ deref h' 1%positive = <["home" := "/home/u/"]> (deref demo_heap 1%positive).
Proof.
  apply (C3_valid_insert_then_lookup demo_os 1%positive "home" "~/" demo_heap).
  - discriminate.
  - simpl. repeat constructor.
  - reflexivity.
  - reflexivity.
Defined.

(** C4.  [__setitem__] with [None] as path raises the null-path error
    ([ValueError], the specification's InvalidPathError) whatever the alias,
    valid or not: the test on the path comes first.  The heap is unchanged. *)
Theorem C4_none_path_rejected (os : OS) (self : loc) (alias : string) (h : heap) :
  setitem os self alias None h
  = (Raise (ValueError "Path cannot be NoneType"), h).
Proof. unfold setitem, raise, none_error. reflexivity. Qed.

(** C5.  When the alias is bound, [setdefault] returns the path it is bound
    to and the heap is the one it started from, whatever the second argument:
    a path that would be refused, or [None]. *)
Theorem C5_setdefault_bound (os : OS) (self : loc) (alias p : string)
    (q : option string) (h : heap) :
  deref h self !! alias = Some p →
  setdefault os self alias q h = (Return p, h).
Proof.
  intros Hp. unfold setdefault, bind, dict_getitem. by rewrite Hp; simpl; rewrite Hp.
Qed.

Lemma C5_setdefault_bound_witness :
  setdefault demo_os 1%positive "home" (Some "/tmp")
    {[ 1%positive := {[ "home" := "/existing" ]} ]}
  = (Return "/existing", {[ 1%positive := {[ "home" := "/existing" ]} ]})
  ∧ setdefault demo_os 1%positive "home" None
    {[ 1%positive := {[ "home" := "/existing" ]} ]}
  = (Return "/existing", {[ 1%positive := {[ "home" := "/existing" ]} ]}).
Proof.
  split; apply C5_setdefault_bound; vm_compute; reflexivity.
Defined.

(** C10.  When the alias is not bound, [setdefault] without a path passes
    [None] on to [__setitem__], which raises the null-path error; the heap is
    unchanged. *)
Theorem C10_setdefault_unbound_no_path (os : OS) (self : loc) (alias : string)
    (h : heap) :
  deref h self !! alias = None →
  setdefault os self alias None h = (Raise none_error, h).
Proof.
  intros Hp. unfold setdefault, bind, dict_getitem. by rewrite Hp.
Qed.

Lemma C10_setdefault_unbound_no_path_witness :
  setdefault demo_os 1%positive "work" None
    {[ 1%positive := {[ "home" := "/home/u" ]} ]}
  = (Raise none_error, {[ 1%positive := {[ "home" := "/home/u" ]} ]}).
Proof.
  apply C10_setdefault_unbound_no_path. vm_compute. reflexivity.
Defined.

(** ** Loops of [__setitem__] and [update] *)

Section update_facts.

Context (os : OS).
Implicit Types (h : heap) (self : loc) (d : gmap string string).
Implicit Types (es : list (string * option string)).

(** The body of the loops of [update]. *)
Let store self : string * option string → M unit :=
  λ '(alias, path), setitem os self alias path.

Lemma bind_unfold {A B} (m : M A) (k : A → M B) h :
  bind m k h
  = match m h with
    | (Return a, h') => k a h'
    | (Raise e, h') => (Raise e, h')
    end.
Proof. reflexivity. Qed.

Lemma for_each_app {A} (l1 l2 : list A) (body : A → M unit) h :
  for_each (l1 ++ l2) body h
  = match for_each l1 body h with
    | (Return _, h1) => for_each l2 body h1
    | (Raise e, h1) => (Raise e, h1)
    end.
Proof.
  revert h. induction l1 as [|x l1 IH]; intros h; simpl; [done|].
  unfold bind. destruct (body x h) as [[[]|e] h1]; [apply IH | done].
Qed.

Lemma for_each_accepted self es h d :
  h !! self = Some d →
  Forall (λ e, accepted os e = true) es →
  for_each es (store self) h = (Return tt, <[self := foldl (commit os) d es]> h).
Proof.
  intros Hd Hall. revert h d Hd.
  induction Hall as [|[alias p] es Hacc _ IH]; intros h d Hd; simpl.
  - unfold ret. by rewrite insert_id.
  - unfold bind. rewrite (setitem_accepted os _ _ _ _ Hacc).
    unfold deref. rewrite Hd; simpl.
    rewrite (IH _ (commit os d (alias, p))) by apply lookup_insert_eq.
    by rewrite insert_insert_eq.
Qed.

Lemma for_each_rejected self bad post h :
  accepted os bad = false →
  ∃ e, setitem os self bad.1 bad.2 h = (Raise e, h)
       ∧ for_each (bad :: post) (store self) h = (Raise e, h).
Proof.
  destruct bad as [alias p]. intros Hrej.
  destruct (setitem_rejected os self alias p h Hrej) as [e He].
  exists e. split; [done|]. simpl. unfold bind. by rewrite He.
Qed.

(** Iterating over the keys of a mapping and reading each value back is
    iterating over its items. *)
Lemma for_each_keys self (m : pydict) es h :
  (∀ alias p, (alias, p) ∈ es → m !! alias = Some p) →
  for_each es.*1
    (λ alias, path ⇐ mapping_getitem m alias ;; setitem os self alias path) h
  = for_each es (store self) h.
Proof.
  revert h. induction es as [|[alias p] es IH]; intros h Hm; simpl; [done|].
  rewrite !bind_unfold. unfold mapping_getitem.
  rewrite (Hm alias p) by apply list_elem_of_here. unfold ret.
  destruct (setitem os self alias p h) as [[[]|e] h1]; [|done].
  apply IH. intros a q Hin. apply Hm. by apply list_elem_of_further.
Qed.

Lemma update_for_each self it kw h :
  is_str it = false →
  update os self it kw h = for_each (entries it kw) (store self) h.
Proof.
  intros Hit. unfold update, entries. rewrite for_each_app. unfold bind at 1.
  destruct it as [[m|l|s]|]; simpl; [| |discriminate|].
  - destruct (decide (items_of m = [])) as [Hnil|Hne].
    + rewrite bool_decide_eq_true_2 by done. simpl. by rewrite Hnil.
    + rewrite bool_decide_eq_false_2 by done. simpl.
      rewrite for_each_keys; [done|].
      intros alias p. apply pydict_lookup_items.
  - destruct l as [|e l]; simpl; [done|]. done.
  - done.
Qed.

Lemma lookup_foldl_commit_notin es d alias :
  alias ∉ es.*1 → foldl (commit os) d es !! alias = d !! alias.
Proof.
  revert d. induction es as [|[a p] es IH]; intros d Hnot; simpl; [done|].
  rewrite fmap_cons, not_elem_of_cons in Hnot. destruct Hnot as [Hne Hnot].
  rewrite IH by done. unfold commit; simpl.
  destruct p; [by rewrite lookup_insert_ne | done].
Qed.

Lemma lookup_foldl_commit_in es d alias path :
  NoDup es.*1 → (alias, Some path) ∈ es →
  foldl (commit os) d es !! alias = Some (expanduser os path).
Proof.
  revert d. induction es as [|[a p] es IH]; intros d Hnd Hin; simpl.
  - by apply elem_of_nil in Hin.
  - rewrite fmap_cons in Hnd. apply NoDup_cons in Hnd as [Hnot Hnd].
    apply elem_of_cons in Hin as [Heq|Hin].
    + injection Heq as <- <-.
      rewrite lookup_foldl_commit_notin by done.
      unfold commit; simpl. apply lookup_insert_eq.
    + by apply IH.
Qed.

(** Feeding the items of a valid table back through [__setitem__] rebuilds
    the table. *)
Lemma reinsert_valid (m : gmap string string) :
  valid_table os m →
  Forall (λ e, accepted os e = true) (map_to_list (Some <$> m))
  ∧ foldl (commit os) ∅ (map_to_list (Some <$> m)) = m.
Proof.
  intros Hval. split.
  - apply Forall_forall. intros [alias q] Hin.
    apply elem_of_map_to_list in Hin. rewrite lookup_fmap in Hin.
    destruct (m !! alias) as [p|] eqn:Hp; simplify_eq/=.
    specialize (Hval alias p Hp). unfold valid_binding in Hval.
    by apply andb_true_iff in Hval as [? _].
  - apply map_eq. intros alias.
    destruct (m !! alias) as [p|] eqn:Hp.
    + rewrite (lookup_foldl_commit_in _ _ alias p).
      * specialize (Hval alias p Hp). unfold valid_binding in Hval.
        apply andb_true_iff in Hval as [_ Heq].
        apply String.eqb_eq in Heq. by rewrite Heq.
      * apply NoDup_fst_map_to_list.
      * apply elem_of_map_to_list. by rewrite lookup_fmap, Hp.
    + rewrite lookup_foldl_commit_notin; [done|].
      intros Hin. apply list_elem_of_fmap in Hin as ([a q] & -> & Hin).
      simpl in Hp. apply elem_of_map_to_list in Hin.
      by rewrite lookup_fmap, Hp in Hin.
Qed.

End update_facts.

(** C7.  [update] passes the entries of its mapping or sequence-of-pairs
    argument and then of its keyword arguments to [__setitem__], one after the
    other, in the order given: a sequence in its order, a dictionary in its
    own iteration order.  When
    every entry is accepted the table receives all of them in that order; when
    an entry is refused, the exception of that entry is raised and the table
    keeps the entries committed before it: nothing is rolled back, and nothing
    after the refused entry is stored. *)
Theorem C7_update_sequential_no_rollback (os : OS) (self : loc)
    (it : option iterable) (kw : pydict)
    (h : heap) (d : gmap string string) :
  h !! self = Some d →
  is_str it = false →
  update os self it kw h
  = for_each (entries it kw) (λ '(alias, path), setitem os self alias path) h
  ∧ (Forall (λ e, accepted os e = true) (entries it kw) →
     update os self it kw h
     = (Return tt, <[self := foldl (commit os) d (entries it kw)]> h))
  ∧ (∀ pre bad post,
       entries it kw = (pre ++ bad :: post)%list →
       Forall (λ e, accepted os e = true) pre →
       accepted os bad = false →
       ∃ e, let h' := <[self := foldl (commit os) d pre]> h in
            setitem os self bad.1 bad.2 h' = (Raise e, h')
            ∧ update os self it kw h = (Raise e, h')).
Proof.
  intros Hd Hit. split; [by apply update_for_each|]. split.
  - intros Hall. rewrite update_for_each by done. by apply for_each_accepted.
  - intros pre bad post Hes Hpre Hbad. rewrite update_for_each, Hes by done.
    rewrite for_each_app, (for_each_accepted os self pre h d Hd Hpre).
    cbv beta iota.
    destruct (for_each_rejected os self bad post
                (<[self := foldl (commit os) d pre]> h) Hbad) as (e & He1 & He2).
    exists e. split; [exact He1 | exact He2].
Qed.

Lemma C7_update_sequential_no_rollback_witness :
  (∃ e, setitem demo_os 1%positive "b b" (Some "/home/u")
          {[ 1%positive := {[ "a" := "/tmp" ]} ]}
        = (Raise e, {[ 1%positive := {[ "a" := "/tmp" ]} ]})
        ∧ update demo_os 1%positive
            (Some (Pairs [("a", Some "/tmp"); ("b b", Some "/home/u");
                          ("c", Some "/home/u")])) ∅ demo_heap
          = (Raise e, {[ 1%positive := {[ "a" := "/tmp" ]} ]}))
  ∧ (∃ e, setitem demo_os 1%positive "a" (Some "/nowhere")
            {[ 1%positive := {[ "b" := "/tmp" ]} ]}
          = (Raise e, {[ 1%positive := {[ "b" := "/tmp" ]} ]})
          ∧ update demo_os 1%positive
              (Some (Mapping (PyDict [("b", Some "/tmp"); ("a", Some "/nowhere")]
                                eq_refl)))
              (PyDict [("c", Some "/etc")] eq_refl) demo_heap
            = (Raise e, {[ 1%positive := {[ "b" := "/tmp" ]} ]})).
Proof.
  split.
  - destruct (C7_update_sequential_no_rollback demo_os 1%positive
                (Some (Pairs [("a", Some "/tmp"); ("b b", Some "/home/u");
                              ("c", Some "/home/u")])) ∅ demo_heap ∅)
      as (_ & _ & Hfail); [reflexivity|reflexivity|].
    destruct (Hfail [("a", Some "/tmp")] ("b b", Some "/home/u")
                [("c", Some "/home/u")]) as (e & He1 & He2).
    + vm_compute. reflexivity.
    + repeat constructor.
    + reflexivity.
    + exists e. split; [exact He1 | exact He2].
  - destruct (C7_update_sequential_no_rollback demo_os 1%positive
                (Some (Mapping (PyDict [("b", Some "/tmp"); ("a", Some "/nowhere")]
                                  eq_refl)))
                (PyDict [("c", Some "/etc")] eq_refl) demo_heap ∅)
      as (_ & _ & Hfail); [reflexivity|reflexivity|].
    destruct (Hfail [("b", Some "/tmp")] ("a", Some "/nowhere")
                [("c", Some "/etc")]) as (e & He1 & He2).
    + vm_compute. reflexivity.
    + repeat constructor.
    + reflexivity.
    + exists e. split; [exact He1 | exact He2].
Defined.

(** ** Construction, copies and partitions *)

Section heap_facts.

Context (os : OS).
Implicit Types (h : heap) (self l : loc) (d : gmap string string).

Lemma fresh_loc_unused h : h !! fresh (dom h) = None.
Proof. apply not_elem_of_dom. apply is_fresh. Qed.

Lemma fresh_loc_ne h self d : h !! self = Some d → fresh (dom h) ≠ self.
Proof. intros Hd Heq. by rewrite <- Heq, fresh_loc_unused in Hd. Qed.

(** Keyword arguments that name no parameter reach the body of [update]
    as they are. *)
Lemma init_no_clash self args (kwargs : pydict) h :
  kwargs !! "self" = None →
  kwargs !! "alias_iterable" = None →
  init os self args kwargs h = update os self args kwargs h.
Proof.
  intros Hself Hit. unfold init, call_update.
  rewrite bool_decide_eq_false_2 by (rewrite Hself; by intros [? ?]).
  by rewrite Hit.
Qed.

(** A table built from the items of a valid table is a new object with
    the same contents, when the items come as a mapping, and also when they
    come as keyword arguments none of which names a parameter. *)
Lemma Aliases_of_valid (m : gmap string string) (as_mapping : bool) h :
  valid_table os m →
  (as_mapping = false → no_parameter_name m) →
  Aliases os
    (if as_mapping then Some (Mapping (pydict_of_table m)) else None)
    (if as_mapping then ∅ else pydict_of_table m) h
  = (Return (fresh (dom h)), <[fresh (dom h) := m]> h).
Proof.
  intros Hval Hkw. destruct (reinsert_valid os m Hval) as [Hacc Hfold].
  unfold Aliases, dict_new. rewrite !bind_unfold.
  set (l := fresh (dom h)).
  assert (Hes : entries
                  (if as_mapping then Some (Mapping (pydict_of_table m)) else None)
                  (if as_mapping then ∅ else pydict_of_table m)
                = map_to_list (Some <$> m)).
  { unfold entries. destruct as_mapping; simpl.
    - by rewrite app_nil_r.
    - done. }
  rewrite init_no_clash.
  - rewrite update_for_each, Hes by (by destruct as_mapping).
    rewrite (for_each_accepted os l _ (<[l := ∅]> h) ∅)
      by (apply lookup_insert_eq || done).
    by rewrite Hfold, insert_insert_eq.
  - destruct as_mapping; [done|].
    destruct Hkw as [Hs _]; [done|]. by rewrite pydict_lookup_of_table, Hs.
  - destruct as_mapping; [done|].
    destruct Hkw as [_ Hi]; [done|]. by rewrite pydict_lookup_of_table, Hi.
Qed.

(** A method called on one object leaves every other object as it is. *)
Lemma setitem_frame self l alias p h :
  l ≠ self → (setitem os self alias p h).2 !! l = h !! l.
Proof.
  intros Hne. destruct (accepted os (alias, p)) eqn:Hacc.
  - rewrite (setitem_accepted os _ _ _ _ Hacc). simpl. by rewrite lookup_insert_ne.
  - by destruct (setitem_rejected os self alias p h Hacc) as [e ->].
Qed.

Lemma for_each_setitem_frame self l es h :
  l ≠ self →
  (for_each es (λ '(alias, path), setitem os self alias path) h).2 !! l = h !! l.
Proof.
  intros Hne. revert h. induction es as [|[alias p] es IH]; intros h; simpl; [done|].
  rewrite bind_unfold.
  pose proof (setitem_frame self l alias p h Hne) as Hstep.
  destruct (setitem os self alias p h) as [[[]|e] h1]; simpl in *.
  - by rewrite IH.
  - done.
Qed.

Lemma for_each_raise_frame {A} (xs : list A) (e : exn) h :
  (for_each xs (λ _, raise e) h).2 = h.
Proof. by destruct xs. Qed.

Lemma update_frame self l it kw h :
  l ≠ self → (update os self it kw h).2 !! l = h !! l.
Proof.
  intros Hne. destruct (is_str it) eqn:Hit.
  - destruct it as [[| |s]|]; try discriminate.
    unfold update. rewrite bind_unfold. destruct (truthy (Str s)).
    + pose proof (for_each_raise_frame (list_ascii_of_string s) unpack_error h)
        as Hfirst.
      destruct (for_each (list_ascii_of_string s) (λ _, raise unpack_error) h)
        as [[[]|e] h1]; simpl in Hfirst; subst h1; [|done].
      by apply for_each_setitem_frame.
    + unfold ret. by apply for_each_setitem_frame.
  - rewrite update_for_each by done. by apply for_each_setitem_frame.
Qed.

Lemma setdefault_frame self l alias p h :
  l ≠ self → (setdefault os self alias p h).2 !! l = h !! l.
Proof.
  intros Hne. unfold setdefault. rewrite bind_unfold. unfold dict_getitem.
  destruct (deref h self !! alias) as [q|] eqn:Hq; simpl.
  - by rewrite Hq.
  - pose proof (setitem_frame self l alias p h Hne) as Hstep.
    destruct (setitem os self alias p h) as [[[]|e] h1]; simpl in *; [|done].
    by destruct (deref h1 self !! alias).
Qed.

End heap_facts.

(** The copy of a table whose bindings are valid, none of them under an
    alias that is the name of a parameter, is a new object, at a location not
    used before and different from the table's, with the same bindings as the
    table; the table itself is as before.  The two are independent: in every
    later state of the heap, [__setitem__], [setdefault] and [update] on the
    copy leave the table's bindings as they are, and the same calls on the
    table leave the copy's bindings as they are. *)
Lemma copy_equal_and_independent (os : OS) (self : loc) (h : heap)
    (d : gmap string string) :
  h !! self = Some d →
  valid_table os d →
  no_parameter_name d →
  ∃ c h',
    copy os self h = (Return c, h')
    ∧ c ≠ self ∧ h !! c = None
    ∧ h' !! c = Some d ∧ h' !! self = Some d
    ∧ (∀ (hh : heap) alias p it kw,
         (setitem os c alias p hh).2 !! self = hh !! self
         ∧ (setdefault os c alias p hh).2 !! self = hh !! self
         ∧ (update os c it kw hh).2 !! self = hh !! self
         ∧ (setitem os self alias p hh).2 !! c = hh !! c
         ∧ (setdefault os self alias p hh).2 !! c = hh !! c
         ∧ (update os self it kw hh).2 !! c = hh !! c).
Proof.
  intros Hd Hval Hnames.
  pose proof (fresh_loc_ne h self d Hd) as Hne.
  exists (fresh (dom h)), (<[fresh (dom h) := d]> h).
  split.
  { unfold copy, as_dict, dict_items. rewrite bind_unfold.
    unfold deref. rewrite Hd. simpl.
    by apply (Aliases_of_valid os d false h Hval). }
  split; [done|]. split; [apply fresh_loc_unused|].
  split; [apply lookup_insert_eq|]. split; [by rewrite lookup_insert_ne|].
  intros hh alias p it kw.
  by rewrite !setitem_frame, !setdefault_frame, !update_frame.
Qed.

(** C8 (evaluation at the failing input).  [self] and [alias_iterable] are
    aliases that [__setitem__] accepts.  [copy] hands the bindings to the
    constructor as keyword arguments, where these two names are parameters:
    the copy of a valid table that binds [self] raises [TypeError], the copy
    of one that binds [alias_iterable] raises the [ValueError] of a failed
    unpacking, and no copy is returned. *)
Theorem C8_copy_raises_on_parameter_name :
  setitem demo_os 1%positive "self" (Some "/tmp") demo_heap
  = (Return tt, {[ 1%positive := {[ "self" := "/tmp" ]} ]})
  ∧ valid_table demo_os {[ "self" := "/tmp" ]}
  ∧ (copy demo_os 1%positive {[ 1%positive := {[ "self" := "/tmp" ]} ]}).1
    = Raise (TypeError
               "__init__() got multiple values for keyword argument 'self'")
  ∧ setitem demo_os 1%positive "alias_iterable" (Some "/tmp") demo_heap
    = (Return tt, {[ 1%positive := {[ "alias_iterable" := "/tmp" ]} ]})
  ∧ valid_table demo_os {[ "alias_iterable" := "/tmp" ]}
  ∧ (copy demo_os 1%positive
       {[ 1%positive := {[ "alias_iterable" := "/tmp" ]} ]}).1
    = Raise (ValueError "need more than 1 value to unpack").
Proof.
  split; [vm_compute; reflexivity|].
  split; [apply (bool_decide_eq_true_1 _); vm_compute; reflexivity|].
  split; [vm_compute; reflexivity|].
  split; [vm_compute; reflexivity|].
  split; [apply (bool_decide_eq_true_1 _); vm_compute; reflexivity|].
  vm_compute; reflexivity.
Qed.

Lemma valid_table_filter (os : OS) (P : string * string → Prop)
    `{!∀ x, Decision (P x)} (d : gmap string string) :
  valid_table os d → valid_table os (filter P d).
Proof.
  intros Hval alias path Hin. apply map_lookup_filter_Some in Hin as [Hin _].
  by apply Hval.
Qed.

(** C6 (as the code has it).  For a table whose bindings are valid and any
    dictionary of default aliases, [user_defined] and [default] return, and
    the two tables they build partition the table's bindings by membership of
    the alias in the default names: their union is the table, they share no
    alias, and each binding lies in the one its alias selects. *)
Theorem C6_partition_of_valid_table (os : OS)
    (DEFAULT_ALIASES : gmap string string) (self : loc) (h : heap)
    (d : gmap string string) :
  h !! self = Some d →
  valid_table os d →
  partition_law os DEFAULT_ALIASES self h.
Proof.
  intros Hd Hval.
  set (du := filter (λ ap : string * string, ¬ is_Some (DEFAULT_ALIASES !! ap.1)) d).
  set (dd := filter (λ ap : string * string, is_Some (DEFAULT_ALIASES !! ap.1)) d).
  set (u := fresh (dom h)). set (h1 := <[u := du]> h).
  set (v := fresh (dom h1)). set (h2 := <[v := dd]> h1).
  assert (Hu : u ≠ self) by exact (fresh_loc_ne h self d Hd).
  assert (Hd1 : h1 !! self = Some d) by (unfold h1; by rewrite lookup_insert_ne).
  assert (Hv : v ≠ self) by exact (fresh_loc_ne h1 self d Hd1).
  assert (Hvu : v ≠ u).
  { apply (fresh_loc_ne h1 u du). apply lookup_insert_eq. }
  assert (Hself : deref h2 self = d).
  { unfold deref, h2. by rewrite lookup_insert_ne, Hd1. }
  assert (Hdu : deref h2 u = du).
  { unfold deref, h2, h1. by rewrite lookup_insert_ne, lookup_insert_eq. }
  assert (Hdd : deref h2 v = dd).
  { unfold deref, h2. by rewrite lookup_insert_eq. }
  assert (Hdisj : dd ##ₘ du) by apply map_disjoint_filter_complement.
  exists u, v, h1, h2.
  rewrite Hself, Hdu, Hdd. unfold deref at 1 2 3. rewrite Hd. simpl.
  split.
  { unfold user_defined, dict_items. rewrite bind_unfold.
    unfold deref. rewrite Hd. simpl.
    apply (Aliases_of_valid os du true h); [by apply valid_table_filter | done]. }
  split.
  { unfold default_, dict_items. rewrite bind_unfold.
    unfold deref. rewrite Hd1. simpl.
    apply (Aliases_of_valid os dd true h1); [by apply valid_table_filter | done]. }
  split; [done|]. split.
  { rewrite map_union_comm by done. apply map_filter_union_complement. }
  split; [done|].
  intros alias path Hin. unfold du, dd. case_decide as Hdef.
  - split.
    + by apply map_lookup_filter_Some.
    + apply map_lookup_filter_None. right. intros p _ Hnot. by apply Hnot.
  - split.
    + by apply map_lookup_filter_Some.
    + apply map_lookup_filter_None. right. intros p _ Hyes. by apply Hdef.
Qed.

Lemma C6_partition_of_valid_table_witness :
  partition_law demo_os demo_defaults 1%positive
    {[ 1%positive := {[ "home" := "/home/u"; "etc" := "/etc" ]} ]}.
Proof.
  apply (C6_partition_of_valid_table demo_os demo_defaults 1%positive _
           {[ "home" := "/home/u"; "etc" := "/etc" ]}).
  - reflexivity.
  - apply (bool_decide_eq_true_1 _). vm_compute. reflexivity.
Defined.

(** C6 (the claim as stated fails).  A table that [__setitem__] filled while
    [/tmp] was a directory has no partition once [/tmp] is gone:
    [user_defined] passes the binding through [__setitem__] again and raises
    the path error. *)
Lemma C6_partition_fails_on_stale_table :
  setitem demo_os 1%positive "t" (Some "/tmp") demo_heap
  = (Return tt, {[ 1%positive := {[ "t" := "/tmp" ]} ]})
  ∧ (user_defined demo_os_later demo_defaults 1%positive
       {[ 1%positive := {[ "t" := "/tmp" ]} ]}).1
    = Raise (path_error "/tmp")
  ∧ ¬ partition_law demo_os_later demo_defaults 1%positive
        {[ 1%positive := {[ "t" := "/tmp" ]} ]}.
Proof.
  split; [vm_compute; reflexivity|]. split; [vm_compute; reflexivity|].
  intros (u & v & h1 & h2 & Hu & _). vm_compute in Hu. discriminate Hu.
Qed.

(** ** [count] *)

Section count_facts.

Context (os : OS).

(** The expression whose wildcards [count] expands. *)
Let expand (e : string) : string :=
  if has_tilde e then expanduser os e else e.

Lemma foldl_snoc (acc l : list string) :
  foldl (λ acc p, (acc ++ [p])%list) acc l = (acc ++ l)%list.
Proof.
  revert acc. induction l as [|p l IH]; intros acc; simpl.
  - by rewrite app_nil_r.
  - by rewrite IH, <- app_assoc.
Qed.

Lemma expanded_from (acc : list string) (items : list string) :
  foldl (λ (acc : list string) path,
           let path := if has_tilde path then expanduser os path else path in
           foldl (λ acc p, (acc ++ [p])%list) acc (glob os path))
        acc items
  = (acc ++ concat ((λ e, glob os (expand e)) <$> items))%list.
Proof.
  revert acc. induction items as [|e items IH]; intros acc; simpl.
  - by rewrite app_nil_r.
  - rewrite foldl_snoc, IH. by rewrite <- app_assoc.
Qed.

Lemma expanded_concat (items : list string) :
  expanded os items = concat ((λ e, glob os (expand e)) <$> items).
Proof. unfold expanded. by rewrite expanded_from. Qed.

Lemma elem_of_expanded (items : list string) (p : string) :
  p ∈ expanded os items ↔ ∃ e, e ∈ items ∧ p ∈ glob os (expand e).
Proof.
  rewrite expanded_concat. induction items as [|e items IH]; simpl.
  - split; [by intros ?%elem_of_nil | by intros (e & ?%elem_of_nil & _)].
  - rewrite elem_of_app, IH. split.
    + intros [Hp|(e' & He' & Hp)]; [exists e | exists e'];
        (split; [|done]); [apply list_elem_of_here | by apply list_elem_of_further].
    + intros (e' & [->|He']%elem_of_cons & Hp); eauto.
Qed.

(** The set whose size [count] returns. *)
Lemma elem_of_counted (items : list string) (p : string) :
  p ∈ (list_to_set (filter (λ p, path_exists os p = true) (expanded os items))
         : gset string)
  ↔ (∃ e, e ∈ items ∧ p ∈ glob os (expand e)) ∧ path_exists os p = true.
Proof.
  rewrite elem_of_list_to_set, list_elem_of_filter, elem_of_expanded. tauto.
Qed.

Lemma count_ext (items items' : list string) :
  (∀ p, (∃ e, e ∈ items ∧ p ∈ glob os (expand e) ∧ path_exists os p = true)
        ↔ (∃ e, e ∈ items' ∧ p ∈ glob os (expand e) ∧ path_exists os p = true)) →
  count os items = count os items'.
Proof.
  intros Hext. unfold count. f_equal. apply set_eq. intros p.
  rewrite !elem_of_counted. specialize (Hext p).
  split; intros [(e & He & Hp) Hex];
    (split; [|done]); [apply proj1 in Hext | apply proj2 in Hext];
    destruct Hext as (e' & He' & Hp' & _); eauto.
Qed.

End count_facts.

(** C9.  [count] returns the size of one set: the paths that the expansion of
    some expression yields and that exist, where an expression is expanded by
    [expanduser] when it contains a tilde and then by [glob].  It returns a
    number for every list of expressions.  An expression whose expansion
    yields nothing that exists contributes nothing, wherever it stands in the
    list; the result depends only on which expressions occur in the list, so
    repeating an expression does not change it; a single expression whose
    expansion is a list of distinct existing paths counts as many as that
    list has. *)
Theorem C9_count_distinct_existing (os : OS) (items : list string) :
  let expand := λ e : string, if has_tilde e then expanduser os e else e in
  (∃ S : gset string,
     count os items = size S
     ∧ ∀ p, p ∈ S ↔ (∃ e, e ∈ items ∧ p ∈ glob os (expand e))
                    ∧ path_exists os p = true)
  ∧ (∀ (pre post : list string) e,
       items = (pre ++ e :: post)%list →
       (∀ p, p ∈ glob os (expand e) → path_exists os p = false) →
       count os items = count os (pre ++ post)%list)
  ∧ (∀ items' : list string,
       (∀ e, e ∈ items ↔ e ∈ items') → count os items = count os items')
  ∧ (∀ e, items = [e] →
       NoDup (glob os (expand e)) →
       Forall (λ p, path_exists os p = true) (glob os (expand e)) →
       count os items = length (glob os (expand e))).
Proof.
  intros expand. split; [|split; [|split]].
  - eexists. split; [reflexivity|]. apply elem_of_counted.
  - intros pre post e -> Hnone. apply count_ext. intros p.
    setoid_rewrite elem_of_app. setoid_rewrite elem_of_cons. split.
    + intros (e' & [Hin|[->|Hin]] & Hp & Hex); [eauto| |eauto].
      rewrite (Hnone p Hp) in Hex. discriminate.
    + intros (e' & [Hin|Hin] & Hp & Hex); eauto 6.
  - intros items' Hsame. apply count_ext. intros p.
    split; intros (e & Hin & Hp); exists e; (split; [by apply Hsame | done]).
  - intros e -> Hnd Hall. unfold count.
    rewrite expanded_concat. simpl. rewrite app_nil_r.
    assert (Hfilter : filter (λ p, path_exists os p = true) (glob os (expand e))
                      = glob os (expand e)).
    { clear Hnd. induction Hall as [|p l Hp _ IH]; [done|].
      rewrite filter_cons_True by done. by rewrite IH. }
    unfold expand in *. rewrite Hfilter. by apply size_list_to_set.
Qed.

Lemma C9_count_distinct_existing_witness :
  count demo_os ["/*"; "/nonexistent"; "~/"; "/tmp"; "~/"]
  = count demo_os ["/*"; "~/"; "/tmp"; "~/"]
  ∧ count demo_os ["/*"; "/nonexistent"; "~/"; "/tmp"; "~/"]
    = count demo_os ["/tmp"; "/*"; "~/"; "/nonexistent"]
  ∧ count demo_os ["/*"] = 5
  ∧ count demo_os ["/nonexistent"] = 0
  ∧ count demo_os ["/*"; "/nonexistent"; "~/"; "/tmp"; "~/"] = 6.
Proof.
  split; [|split; [|split; [|split]]].
  - destruct (C9_count_distinct_existing demo_os
                ["/*"; "/nonexistent"; "~/"; "/tmp"; "~/"]) as (_ & Hdrop & _).
    apply (Hdrop ["/*"] ["~/"; "/tmp"; "~/"] "/nonexistent"); [reflexivity|].
    intros p Hp. vm_compute in Hp. by apply elem_of_nil in Hp.
  - destruct (C9_count_distinct_existing demo_os
                ["/*"; "/nonexistent"; "~/"; "/tmp"; "~/"]) as (_ & _ & Hsame & _).
    apply Hsame. intros e. rewrite !elem_of_cons, !elem_of_nil.
    split; intros H; decompose [or] H; subst; try contradiction;
      repeat first [left; reflexivity | right].
  - destruct (C9_count_distinct_existing demo_os ["/*"]) as (_ & _ & _ & Hone).
    apply (Hone "/*"); [reflexivity| |].
    + vm_compute. apply (bool_decide_unpack _). vm_compute. exact I.
    + repeat constructor.
  - destruct (C9_count_distinct_existing demo_os ["/nonexistent"])
      as (_ & _ & _ & Hone).
    apply (Hone "/nonexistent"); [reflexivity| |]; constructor.
  - vm_compute. reflexivity.
Defined.

(** * Further properties of the class *)

(** ** [__setitem__] and [setdefault] *)

Lemma setitem_return_inv (os : OS) (self : loc) (alias : string)
    (p : option string) (h h' : heap) :
  setitem os self alias p h = (Return tt, h') →
  accepted os (alias, p) = true
  ∧ h' = <[self := commit os (deref h self) (alias, p)]> h.
Proof.
  intros Hret. destruct (accepted os (alias, p)) eqn:Hacc.
  - rewrite (setitem_accepted os _ _ _ _ Hacc) in Hret. split; congruence.
  - destruct (setitem_rejected os self alias p h Hacc) as [e He]. congruence.
Qed.

(** X1.  [__setitem__] returns normally exactly when the path is not [None],
    the alias matches the pattern and the expanded path is a directory or can
    be executed. *)
Theorem X1_setitem_returns_iff (os : OS) (self : loc) (alias : string)
    (p : option string) (h : heap) :
  (∃ h', setitem os self alias p h = (Return tt, h'))
  ↔ ∃ q, p = Some q
         ∧ re_match_ALIAS_REGEX alias = true
         ∧ (isdir os (expanduser os q) = true
            ∨ access_X_OK os (expanduser os q) = true).
Proof.
  split.
  - intros [h' Hret]. apply setitem_return_inv in Hret as [Hacc _].
    unfold accepted in Hacc; simpl in Hacc. destruct p as [q|]; [|done].
    exists q. apply andb_true_iff in Hacc as [Hre Hp].
    apply orb_true_iff in Hp. done.
  - intros (q & -> & Hre & Hp). eexists. apply setitem_accepted.
    unfold accepted; simpl. rewrite Hre; simpl. by apply orb_true_iff.
Qed.

Lemma X1_setitem_returns_iff_witness :
  ∃ h', setitem demo_os 1%positive "bin" (Some "/bin/ls") demo_heap
        = (Return tt, h').
Proof.
  apply (X1_setitem_returns_iff demo_os 1%positive "bin" (Some "/bin/ls")
           demo_heap).
  exists "/bin/ls". split; [reflexivity|]. split; [reflexivity|].
  right. reflexivity.
Defined.

(** X2.  Whatever its outcome, [__setitem__] touches nothing but the binding
    of its alias in its own table: other objects and other aliases are as
    before, and when it raises the whole heap is as before. *)
Theorem X2_setitem_footprint (os : OS) (self : loc) (alias : string)
    (p : option string) (h : heap) :
  (∀ l, l ≠ self → (setitem os self alias p h).2 !! l = h !! l)
  ∧ (∀ b, b ≠ alias →
       deref (setitem os self alias p h).2 self !! b = deref h self !! b)
  ∧ (∀ e, (setitem os self alias p h).1 = Raise e →
       (setitem os self alias p h).2 = h).
Proof.
  split; [intros l Hl; by apply setitem_frame|].
  destruct (accepted os (alias, p)) eqn:Hacc.
  - rewrite (setitem_accepted os _ _ _ _ Hacc). simpl. split; [|done].
    intros b Hb. unfold deref at 1. rewrite lookup_insert_eq. simpl.
    unfold commit; simpl. destruct p; [by rewrite lookup_insert_ne | done].
  - destruct (setitem_rejected os self alias p h Hacc) as [e ->]. by simpl.
Qed.

Lemma X2_setitem_footprint_witness :
  deref (setitem demo_os 1%positive "t" (Some "/tmp")
           {[ 1%positive := {[ "e" := "/etc" ]} ]}).2 1%positive !! "e"
  = Some "/etc"
  ∧ (setitem demo_os 1%positive "t" (Some "/nowhere")
       {[ 1%positive := {[ "e" := "/etc" ]} ]}).2
    = {[ 1%positive := {[ "e" := "/etc" ]} ]}.
Proof.
  split.
  - destruct (X2_setitem_footprint demo_os 1%positive "t" (Some "/tmp")
                {[ 1%positive := {[ "e" := "/etc" ]} ]}) as (_ & Hother & _).
    rewrite (Hother "e"); [reflexivity | discriminate].
  - destruct (X2_setitem_footprint demo_os 1%positive "t" (Some "/nowhere")
                {[ 1%positive := {[ "e" := "/etc" ]} ]}) as (_ & _ & Hraise).
    apply (Hraise (path_error "/nowhere")). reflexivity.
Defined.

(** X3.  A second [__setitem__] for the same alias replaces the binding: the
    heap after both calls is the heap that the second call alone gives, the
    alias is then bound to the second expanded path, and storing the same path
    twice is storing it once. *)
Theorem X3_setitem_overwrites (os : OS) (self : loc) (alias p1 p2 : string)
    (h h1 h2 : heap) :
  setitem os self alias (Some p1) h = (Return tt, h1) →
  setitem os self alias (Some p2) h1 = (Return tt, h2) →
  setitem os self alias (Some p2) h = (Return tt, h2)
  ∧ dict_getitem self alias h2 = (Return (expanduser os p2), h2)
  ∧ (p1 = p2 → h2 = h1).
Proof.
  intros [Hacc1 ->]%setitem_return_inv [Hacc2 ->]%setitem_return_inv.
  set (d := deref h self).
  assert (Hd1 : deref (<[self := commit os d (alias, Some p1)]> h) self
                = <[alias := expanduser os p1]> d).
  { unfold deref at 1. by rewrite lookup_insert_eq. }
  rewrite Hd1. unfold commit; cbn [fst snd]. rewrite !insert_insert_eq.
  split; [|split].
  - by rewrite (setitem_accepted os _ _ _ _ Hacc2).
  - unfold dict_getitem, deref. rewrite lookup_insert_eq; simpl.
    by rewrite lookup_insert_eq.
  - by intros ->.
Qed.

Lemma X3_setitem_overwrites_witness :
  setitem demo_os 1%positive "w" (Some "/etc") demo_heap
  = (Return tt, {[ 1%positive := {[ "w" := "/etc" ]} ]})
  ∧ dict_getitem 1%positive "w" {[ 1%positive := {[ "w" := "/etc" ]} ]}
    = (Return "/etc", {[ 1%positive := {[ "w" := "/etc" ]} ]}).
Proof.
  destruct (X3_setitem_overwrites demo_os 1%positive "w" "/tmp" "/etc" demo_heap
              {[ 1%positive := {[ "w" := "/tmp" ]} ]}
              {[ 1%positive := {[ "w" := "/etc" ]} ]}) as (H1 & H2 & _).
  - vm_compute. reflexivity.
  - vm_compute. reflexivity.
  - split; [exact H1 | exact H2].
Defined.

(** X4.  For an alias that is not bound, [setdefault] is [__setitem__]
    followed by a lookup: with arguments that [__setitem__] accepts it stores
    the binding and returns the expanded path; otherwise it raises the
    exception of [__setitem__], also when that is the [KeyError] of a bad
    alias, and the heap is as before. *)
Theorem X4_setdefault_unbound (os : OS) (self : loc) (alias : string)
    (p : option string) (h : heap) :
  deref h self !! alias = None →
  (∀ q, p = Some q → accepted os (alias, p) = true →
     setdefault os self alias p h
     = (Return (expanduser os q),
        <[self := <[alias := expanduser os q]> (deref h self)]> h))
  ∧ (accepted os (alias, p) = false →
     ∃ e, setitem os self alias p h = (Raise e, h)
          ∧ setdefault os self alias p h = (Raise e, h)).
Proof.
  intros Hnone. split.
  - intros q -> Hacc. unfold setdefault. rewrite bind_unfold.
    unfold dict_getitem at 1. rewrite Hnone.
    rewrite (setitem_accepted os _ _ _ _ Hacc). unfold commit; simpl.
    unfold dict_getitem, deref. rewrite lookup_insert_eq; simpl.
    by rewrite lookup_insert_eq.
  - intros Hrej. destruct (setitem_rejected os self alias p h Hrej) as [e He].
    exists e. split; [done|]. unfold setdefault. rewrite bind_unfold.
    unfold dict_getitem at 1. by rewrite Hnone, He.
Qed.

Lemma X4_setdefault_unbound_witness :
  setdefault demo_os 1%positive "home" (Some "~") demo_heap
  = (Return "/home/u", {[ 1%positive := {[ "home" := "/home/u" ]} ]})
  ∧ ∃ e, setitem demo_os 1%positive "my home" (Some "~") demo_heap
         = (Raise e, demo_heap)
         ∧ setdefault demo_os 1%positive "my home" (Some "~") demo_heap
           = (Raise e, demo_heap).
Proof.
  split.
  - destruct (X4_setdefault_unbound demo_os 1%positive "home" (Some "~")
                demo_heap) as [Hok _]; [reflexivity|].
    apply (Hok "~"); reflexivity.
  - destruct (X4_setdefault_unbound demo_os 1%positive "my home" (Some "~")
                demo_heap) as [_ Hbad]; [reflexivity|].
    apply Hbad. reflexivity.
Defined.

(** X5.  When [setdefault] returns a path, the alias is bound to that path
    afterwards, and calling [setdefault] again for the alias, with any second
    argument, returns the same path and changes nothing. *)
Theorem X5_setdefault_settles (os : OS) (self : loc) (alias r : string)
    (p : option string) (h h' : heap) :
  setdefault os self alias p h = (Return r, h') →
  dict_getitem self alias h' = (Return r, h')
  ∧ ∀ q, setdefault os self alias q h' = (Return r, h').
Proof.
  intros Hret.
  assert (Hbound : deref h' self !! alias = Some r).
  { unfold setdefault in Hret. rewrite bind_unfold in Hret.
    unfold dict_getitem at 1 in Hret.
    destruct (deref h self !! alias) as [r0|] eqn:Hr0.
    - unfold dict_getitem in Hret. rewrite Hr0 in Hret. congruence.
    - destruct (setitem os self alias p h) as [[[]|e] h1]; [|done].
      unfold dict_getitem in Hret.
      destruct (deref h1 self !! alias) eqn:Hr1; congruence. }
  split.
  - unfold dict_getitem. by rewrite Hbound.
  - intros q. unfold setdefault. rewrite bind_unfold.
    unfold dict_getitem. by rewrite Hbound; simpl; rewrite Hbound.
Qed.

Lemma X5_setdefault_settles_witness :
  dict_getitem 1%positive "home" {[ 1%positive := {[ "home" := "/home/u" ]} ]}
  = (Return "/home/u", {[ 1%positive := {[ "home" := "/home/u" ]} ]})
  ∧ setdefault demo_os 1%positive "home" (Some "/nowhere")
      {[ 1%positive := {[ "home" := "/home/u" ]} ]}
    = (Return "/home/u", {[ 1%positive := {[ "home" := "/home/u" ]} ]}).
Proof.
  destruct (X5_setdefault_settles demo_os 1%positive "home" "/home/u" (Some "~")
              demo_heap {[ 1%positive := {[ "home" := "/home/u" ]} ]})
    as [Hget Hagain].
  - vm_compute. reflexivity.
  - split; [exact Hget | exact (Hagain (Some "/nowhere"))].
Defined.

(** ** [update] *)

Section update_more.

Context (os : OS).
Implicit Types (h : heap) (self : loc) (d : gmap string string).
Implicit Types (es : list (string * option string)).

Lemma first_rejected es :
  Forall (λ e, accepted os e = true) es
  ∨ ∃ pre bad post,
      es = (pre ++ bad :: post)%list
      ∧ Forall (λ e, accepted os e = true) pre ∧ accepted os bad = false.
Proof.
  induction es as [|e es IH]; [by left|].
  destruct (accepted os e) eqn:He.
  - destruct IH as [Hall|(pre & bad & post & -> & Hpre & Hbad)].
    + left. by constructor.
    + right. exists (e :: pre), bad, post. split; [done|]. split; [|done].
      by constructor.
  - right. exists [], e, es. by repeat split.
Qed.

Lemma for_each_untouched self es h alias :
  alias ∉ es.*1 →
  deref (for_each es (λ '(a, p), setitem os self a p) h).2 self !! alias
  = deref h self !! alias.
Proof.
  revert h. induction es as [|[a p] es IH]; intros h Hnot; simpl; [done|].
  rewrite fmap_cons, not_elem_of_cons in Hnot. destruct Hnot as [Hne Hnot].
  rewrite bind_unfold.
  destruct (accepted os (a, p)) eqn:Hacc.
  - rewrite (setitem_accepted os _ _ _ _ Hacc). rewrite IH by done.
    unfold deref at 1. rewrite lookup_insert_eq. simpl.
    unfold commit; simpl. destruct p; [by rewrite lookup_insert_ne | done].
  - by destruct (setitem_rejected os self a p h Hacc) as [e ->].
Qed.

Lemma lookup_foldl_commit_last es d pre post alias path :
  es = (pre ++ (alias, Some path) :: post)%list →
  alias ∉ post.*1 →
  foldl (commit os) d es !! alias = Some (expanduser os path).
Proof.
  intros -> Hnot. rewrite foldl_app. simpl.
  rewrite lookup_foldl_commit_notin by done.
  unfold commit at 1; simpl. apply lookup_insert_eq.
Qed.

Lemma update_untouched self it kw h alias :
  alias ∉ (entries it kw).*1 →
  deref (update os self it kw h).2 self !! alias = deref h self !! alias.
Proof.
  intros Hnot. destruct (is_str it) eqn:Hit.
  - destruct it as [[| |s]|]; try discriminate.
    unfold update. rewrite bind_unfold. destruct (truthy (Str s)).
    + pose proof (for_each_raise_frame (list_ascii_of_string s) unpack_error h)
        as Hfirst.
      destruct (for_each (list_ascii_of_string s) (λ _, raise unpack_error) h)
        as [[[]|e] h1]; simpl in Hfirst; subst h1; [|done].
      by apply for_each_untouched.
    + unfold ret. by apply for_each_untouched.
  - rewrite update_for_each by done. by apply for_each_untouched.
Qed.

Lemma update_binds_last self it kw h d pre post alias path :
  h !! self = Some d →
  is_str it = false →
  Forall (λ e, accepted os e = true) (entries it kw) →
  entries it kw = (pre ++ (alias, Some path) :: post)%list →
  alias ∉ post.*1 →
  deref (update os self it kw h).2 self !! alias = Some (expanduser os path).
Proof.
  intros Hd Hit Hall Hes Hnot.
  rewrite update_for_each by done.
  rewrite (for_each_accepted os self _ h d Hd Hall). simpl.
  unfold deref. rewrite lookup_insert_eq. simpl.
  by apply (lookup_foldl_commit_last _ d pre post).
Qed.

End update_more.

(** X6.  [update] with a mapping or a sequence of pairs returns normally
    exactly when [__setitem__] accepts every entry it is given. *)
Theorem X6_update_returns_iff (os : OS) (self : loc) (it : option iterable)
    (kw : pydict) (h : heap) (d : gmap string string) :
  h !! self = Some d →
  is_str it = false →
  (∃ h', update os self it kw h = (Return tt, h'))
  ↔ Forall (λ e, accepted os e = true) (entries it kw).
Proof.
  intros Hd Hit. rewrite update_for_each by done. split.
  - intros [h' Hret].
    destruct (first_rejected os (entries it kw))
      as [Hall|(pre & bad & post & Hes & Hpre & Hbad)]; [done|].
    rewrite Hes, for_each_app in Hret.
    rewrite (for_each_accepted os self pre h d Hd Hpre) in Hret.
    destruct (for_each_rejected os self bad post
                (<[self := foldl (commit os) d pre]> h) Hbad) as (e & _ & He).
    rewrite He in Hret. discriminate.
  - intros Hall. eexists. by apply for_each_accepted.
Qed.

Lemma X6_update_returns_iff_witness :
  (∃ h', update demo_os 1%positive
           (Some (Pairs [("a", Some "/tmp"); ("b", Some "~")]))
           (PyDict [("c", Some "/etc")] eq_refl) demo_heap = (Return tt, h')).
Proof.
  apply (X6_update_returns_iff demo_os 1%positive _ _ demo_heap ∅);
    [reflexivity | reflexivity |].
  vm_compute. repeat constructor.
Defined.

(** X7.  Whatever its outcome, [update] leaves the binding of every alias
    that is not among its entries as it was. *)
Theorem X7_update_leaves_other_aliases (os : OS) (self : loc)
    (it : option iterable) (kw : pydict) (h : heap)
    (alias : string) :
  alias ∉ (entries it kw).*1 →
  deref (update os self it kw h).2 self !! alias = deref h self !! alias.
Proof.
  apply update_untouched.
Qed.

Lemma X7_update_leaves_other_aliases_witness :
  deref (update demo_os 1%positive
           (Some (Pairs [("a", Some "/tmp"); ("b b", Some "~")])) ∅
           {[ 1%positive := {[ "keep" := "/etc" ]} ]}).2 1%positive !! "keep"
  = Some "/etc".
Proof.
  rewrite X7_update_leaves_other_aliases; [reflexivity|].
  vm_compute. intros Hin.
  repeat (apply elem_of_cons in Hin as [Hin|Hin]; [discriminate|]).
  by apply elem_of_nil in Hin.
Defined.

(** X8.  When [update] returns, an alias that occurs several times among the
    entries is bound to the expanded path of its last occurrence. *)
Theorem X8_update_last_entry_wins (os : OS) (self : loc) (it : option iterable)
    (kw : pydict) (h : heap) (d : gmap string string)
    (pre post : list (string * option string)) (alias path : string) :
  h !! self = Some d →
  is_str it = false →
  Forall (λ e, accepted os e = true) (entries it kw) →
  entries it kw = (pre ++ (alias, Some path) :: post)%list →
  alias ∉ post.*1 →
  deref (update os self it kw h).2 self !! alias = Some (expanduser os path).
Proof.
  intros Hd Hit Hall Hes Hnot.
  by apply (update_binds_last os self it kw h d pre post).
Qed.

Lemma X8_update_last_entry_wins_witness :
  deref (update demo_os 1%positive
           (Some (Pairs [("a", Some "/tmp"); ("b", Some "~"); ("a", Some "/etc")]))
           ∅ demo_heap).2 1%positive !! "a"
  = Some "/etc".
Proof.
  apply (X8_update_last_entry_wins demo_os 1%positive _ _ demo_heap ∅
           [("a", Some "/tmp"); ("b", Some "~")] [] "a" "/etc").
  - reflexivity.
  - reflexivity.
  - vm_compute. repeat constructor.
  - vm_compute. reflexivity.
  - apply not_elem_of_nil.
Defined.

(** X9.  Keyword arguments are stored after the entries of the mapping or
    sequence: when [update] returns, an alias given as a keyword argument is
    bound to the expanded path of that argument, whatever the mapping or
    sequence says about it. *)
Theorem X9_update_keyword_wins (os : OS) (self : loc) (it : option iterable)
    (kw : pydict) (h : heap) (d : gmap string string)
    (alias path : string) :
  h !! self = Some d →
  is_str it = false →
  Forall (λ e, accepted os e = true) (entries it kw) →
  kw !! alias = Some (Some path) →
  deref (update os self it kw h).2 self !! alias = Some (expanduser os path).
Proof.
  intros Hd Hit Hall Hkw.
  assert (Hin : (alias, Some path) ∈ items_of kw)
    by by apply pydict_lookup_items.
  apply list_elem_of_split in Hin as (l1 & l2 & Hsplit).
  pose proof (pydict_keys_NoDup kw) as Hnd.
  rewrite Hsplit, fmap_app, fmap_cons in Hnd.
  apply NoDup_app in Hnd as (_ & _ & Hnd). apply NoDup_cons in Hnd as [Hnot _].
  apply (update_binds_last os self it kw h d) with
    (pre := (match it with
             | Some (Mapping m) => items_of m
             | Some (Pairs l) => l
             | _ => []
             end ++ l1)%list) (post := l2); try done.
  unfold entries. rewrite Hsplit, <- app_assoc. by destruct it as [[]|].
Qed.

Lemma X9_update_keyword_wins_witness :
  deref (update demo_os 1%positive
           (Some (Mapping (PyDict [("b", Some "~"); ("a", Some "/tmp")] eq_refl)))
           (PyDict [("a", Some "/etc")] eq_refl) demo_heap).2 1%positive !! "a"
  = Some "/etc".
Proof.
  apply (X9_update_keyword_wins demo_os 1%positive _ _ demo_heap ∅ "a" "/etc").
  - reflexivity.
  - reflexivity.
  - vm_compute. repeat constructor.
  - reflexivity.
Defined.

(** X10.  A keyword argument whose value is a path (a string or [None]) and
    whose name is [self] or [alias_iterable] never becomes a binding: whatever
    the outcome of the call [self.update( *args, **kwargs)], the table binds
    that name as it did before.  (A dictionary given for [alias_iterable] is
    stored entry by entry like any other, also an entry under that name.) *)
Theorem X10_path_keyword_named_as_parameter_not_stored (os : OS) (self : loc)
    (args : option iterable) (kwargs : pydict) (h : heap)
    (name : string) :
  name = "self" ∨ name = "alias_iterable" →
  is_Some (kwargs !! name) →
  deref (call_update os self args kwargs h).2 self !! name
  = deref h self !! name.
Proof.
  intros Hname Hsome. unfold call_update.
  destruct (decide (is_Some (kwargs !! "self"))) as [Hs|Hs].
  { by rewrite bool_decide_eq_true_2. }
  rewrite bool_decide_eq_false_2 by done.
  destruct Hname as [->| ->]; [done|].
  destruct Hsome as [v Hv]. rewrite Hv.
  destruct args as [it|]; [done|].
  apply update_untouched.
  assert (Hes : entries (Str <$> v) (pydict_delete "alias_iterable" kwargs)
                = items_of (pydict_delete "alias_iterable" kwargs))
    by by destruct v.
  rewrite Hes. apply pydict_delete_keys.
Qed.

Lemma X10_path_keyword_named_as_parameter_not_stored_witness :
  deref (call_update demo_os 1%positive None
           (PyDict [("t", Some "/tmp"); ("alias_iterable", Some "/tmp")] eq_refl)
           demo_heap).2 1%positive !! "alias_iterable"
  = None
  ∧ call_update demo_os 1%positive
      (Some (Mapping (PyDict [("alias_iterable", Some "/tmp")] eq_refl))) ∅
      demo_heap
    = (Return tt, {[ 1%positive := {[ "alias_iterable" := "/tmp" ]} ]}).
Proof.
  split.
  - rewrite X10_path_keyword_named_as_parameter_not_stored;
      [reflexivity | by right |].
    vm_compute. by eexists.
  - vm_compute. reflexivity.
Defined.

(** ** The invariant of the class *)

Section invariant.

Context (os : OS).
Implicit Types (h : heap) (self l : loc).

(** A computation keeps the invariant whatever its outcome. *)
Let keeps {A} (m : M A) : Prop :=
  ∀ h, checked_heap os h → checked_heap os (m h).2.

Lemma keeps_ret {A} (a : A) : keeps (ret a).
Proof. by intros h Hh. Qed.

Lemma keeps_raise {A} (e : exn) : keeps (raise e : M A).
Proof. by intros h Hh. Qed.

Lemma keeps_bind {A B} (m : M A) (k : A → M B) :
  keeps m → (∀ a, keeps (k a)) → keeps (bind m k).
Proof.
  intros Hm Hk h Hh. rewrite bind_unfold. specialize (Hm h Hh).
  destruct (m h) as [[a|e] h1]; simpl in *; [by apply Hk | done].
Qed.

Lemma keeps_for_each {A} (xs : list A) (body : A → M unit) :
  (∀ x, keeps (body x)) → keeps (for_each xs body).
Proof.
  intros Hbody. induction xs as [|x xs IH]; simpl; [apply keeps_ret|].
  apply keeps_bind; [apply Hbody | by intros _].
Qed.

Lemma checked_deref h self : checked_heap os h → checked_table os (deref h self).
Proof.
  intros Hh. unfold deref. destruct (h !! self) as [d|] eqn:Hd; simpl.
  - by apply (Hh self d).
  - apply map_Forall_empty.
Qed.

Lemma keeps_setitem self alias p : keeps (setitem os self alias p).
Proof.
  intros h Hh. destruct (accepted os (alias, p)) eqn:Hacc.
  - rewrite (setitem_accepted os _ _ _ _ Hacc). simpl.
    apply map_Forall_insert_2; [|done].
    unfold accepted, commit in *; simpl in *. destruct p as [q|]; [|done].
    apply map_Forall_insert_2; [done | by apply checked_deref].
  - by destruct (setitem_rejected os self alias p h Hacc) as [e ->].
Qed.

Lemma keeps_setdefault self alias p : keeps (setdefault os self alias p).
Proof.
  intros h Hh. unfold setdefault. rewrite bind_unfold. unfold dict_getitem.
  destruct (deref h self !! alias) as [r|] eqn:Hr; simpl.
  - by rewrite Hr.
  - pose proof (keeps_setitem self alias p h Hh) as Hstep.
    destruct (setitem os self alias p h) as [[[]|e] h1]; simpl in *; [|done].
    by destruct (deref h1 self !! alias).
Qed.

Lemma keeps_update self it kw : keeps (update os self it kw).
Proof.
  unfold update. apply keeps_bind.
  - destruct it as [[m|l|s]|]; [| | |apply keeps_ret].
    + destruct (truthy (Mapping m)); [|apply keeps_ret].
      apply keeps_for_each. intros alias. apply keeps_bind.
      * unfold mapping_getitem. destruct (m !! alias);
          [apply keeps_ret | apply keeps_raise].
      * intros p. apply keeps_setitem.
    + destruct (truthy (Pairs l)); [|apply keeps_ret].
      apply keeps_for_each. intros [alias p]. apply keeps_setitem.
    + destruct (truthy (Str s)); [|apply keeps_ret].
      apply keeps_for_each. intros _. apply keeps_raise.
  - intros _. apply keeps_for_each. intros [alias p]. apply keeps_setitem.
Qed.

Lemma keeps_init self args kwargs : keeps (init os self args kwargs).
Proof.
  unfold init, call_update.
  destruct (bool_decide (is_Some (kwargs !! "self"))); [apply keeps_raise|].
  destruct (kwargs !! "alias_iterable") as [v|]; [|apply keeps_update].
  destruct args; [apply keeps_raise | apply keeps_update].
Qed.

Lemma keeps_Aliases args kwargs : keeps (Aliases os args kwargs).
Proof.
  unfold Aliases. apply keeps_bind.
  - intros h Hh. unfold dict_new; simpl.
    apply map_Forall_insert_2; [apply map_Forall_empty | done].
  - intros self. apply keeps_bind; [apply keeps_init | intros _; apply keeps_ret].
Qed.

(** The constructor changes no object that exists when it is called. *)
Lemma call_update_frame self l args kwargs h :
  l ≠ self → (call_update os self args kwargs h).2 !! l = h !! l.
Proof.
  intros Hne. unfold call_update.
  destruct (bool_decide (is_Some (kwargs !! "self"))); [done|].
  destruct (kwargs !! "alias_iterable") as [v|]; [|by apply update_frame].
  destruct args; [done | by apply update_frame].
Qed.

Lemma Aliases_frame args kwargs h l d :
  h !! l = Some d → (Aliases os args kwargs h).2 !! l = Some d.
Proof.
  intros Hl. pose proof (fresh_loc_ne h l d Hl) as Hne.
  unfold Aliases, dict_new. rewrite !bind_unfold.
  set (self := fresh (dom h)) in *.
  assert (Hstep : (init os self args kwargs (<[self := ∅]> h)).2 !! l = Some d).
  { unfold init. destruct (bool_decide (is_Some (kwargs !! "self"))); simpl.
    - by rewrite lookup_insert_ne.
    - rewrite call_update_frame by done. by rewrite lookup_insert_ne. }
  by destruct (init os self args kwargs (<[self := ∅]> h)) as [[[]|e] h1].
Qed.

End invariant.

(** X11.  The methods that change a table keep the invariant of the class:
    if every binding in the heap has a matching alias and a path that is a
    directory or executable, the same holds after [__setitem__], [setdefault]
    and [update], whether they return or raise. *)
Theorem X11_mutators_keep_invariant (os : OS) (self : loc) (alias : string)
    (p : option string) (it : option iterable)
    (kw : pydict) (h : heap) :
  checked_heap os h →
  checked_heap os (setitem os self alias p h).2
  ∧ checked_heap os (setdefault os self alias p h).2
  ∧ checked_heap os (update os self it kw h).2.
Proof.
  intros Hh. split; [by apply keeps_setitem|].
  split; [by apply keeps_setdefault | by apply keeps_update].
Qed.

Lemma X11_mutators_keep_invariant_witness :
  checked_heap demo_os
    (update demo_os 1%positive
       (Some (Pairs [("a", Some "/locked"); ("b b", Some "~")])) ∅
       {[ 1%positive := {[ "home" := "/home/u" ]} ]}).2.
Proof.
  apply (X11_mutators_keep_invariant demo_os 1%positive "" None).
  apply (bool_decide_eq_true_1 _). vm_compute. reflexivity.
Defined.

(** X12.  The methods that build a table keep the invariant of the class:
    after the constructor, [copy], [user_defined] and [default], whether they
    return or raise, every table in the heap, the new one included, has only
    bindings with a matching alias and a path that is a directory or
    executable. *)
Theorem X12_constructors_keep_invariant (os : OS)
    (DEFAULT_ALIASES : gmap string string) (self : loc)
    (args : option iterable) (kwargs : pydict) (h : heap) :
  checked_heap os h →
  checked_heap os (Aliases os args kwargs h).2
  ∧ checked_heap os (copy os self h).2
  ∧ checked_heap os (user_defined os DEFAULT_ALIASES self h).2
  ∧ checked_heap os (default_ os DEFAULT_ALIASES self h).2.
Proof.
  intros Hh. split; [by apply keeps_Aliases|].
  unfold copy, user_defined, default_, as_dict, dict_items.
  rewrite !bind_unfold. repeat split; by apply keeps_Aliases.
Qed.

Lemma X12_constructors_keep_invariant_witness :
  checked_heap demo_os
    (Aliases demo_os
       (Some (Mapping (PyDict [("t", Some "/tmp"); ("x", None)] eq_refl)))
       (PyDict [("e", Some "/etc")] eq_refl) ∅).2.
Proof.
  destruct (X12_constructors_keep_invariant demo_os ∅ 1%positive
              (Some (Mapping (PyDict [("t", Some "/tmp"); ("x", None)] eq_refl)))
              (PyDict [("e", Some "/etc")] eq_refl) ∅) as [Hnew _].
  - apply map_Forall_empty.
  - exact Hnew.
Defined.

(** X13.  The constructor, [copy], [user_defined] and [default] change no
    table that exists when they are called, whether they return or raise. *)
Theorem X13_constructors_change_no_table (os : OS)
    (DEFAULT_ALIASES : gmap string string) (self : loc)
    (args : option iterable) (kwargs : pydict) (h : heap)
    (l : loc) (d : gmap string string) :
  h !! l = Some d →
  (Aliases os args kwargs h).2 !! l = Some d
  ∧ (copy os self h).2 !! l = Some d
  ∧ (user_defined os DEFAULT_ALIASES self h).2 !! l = Some d
  ∧ (default_ os DEFAULT_ALIASES self h).2 !! l = Some d.
Proof.
  intros Hl. split; [by apply Aliases_frame|].
  unfold copy, user_defined, default_, as_dict, dict_items.
  rewrite !bind_unfold. repeat split; by apply Aliases_frame.
Qed.

Lemma X13_constructors_change_no_table_witness :
  (copy demo_os 1%positive {[ 1%positive := {[ "self" := "/tmp" ]} ]}).2
    !! 1%positive
  = Some {[ "self" := "/tmp" ]}.
Proof.
  destruct (X13_constructors_change_no_table demo_os ∅ 1%positive None ∅
              {[ 1%positive := {[ "self" := "/tmp" ]} ]} 1%positive
              {[ "self" := "/tmp" ]}) as (_ & Hcopy & _).
  - reflexivity.
  - exact Hcopy.
Defined.

(** ** Rebuilding and splitting a table *)

(** X14.  Passing the dictionary of a valid table to the constructor as its
    positional argument gives a new table with the same bindings, whatever the
    aliases are called. *)
Theorem X14_rebuild_from_as_dict (os : OS) (self : loc) (h : heap)
    (d : gmap string string) :
  h !! self = Some d →
  valid_table os d →
  (snapshot ⇐ as_dict self ;;
   Aliases os (Some (Mapping (pydict_of_table snapshot))) ∅) h
  = (Return (fresh (dom h)), <[fresh (dom h) := d]> h).
Proof.
  intros Hd Hval. rewrite bind_unfold. unfold as_dict, dict_items, deref.
  rewrite Hd. simpl. by apply (Aliases_of_valid os d true h).
Qed.

Lemma X14_rebuild_from_as_dict_witness :
  (snapshot ⇐ as_dict 1%positive ;;
   Aliases demo_os (Some (Mapping (pydict_of_table snapshot))) ∅)
    {[ 1%positive := {[ "self" := "/tmp" ]} ]}
  = (Return 2%positive,
     {[ 1%positive := {[ "self" := "/tmp" ]};
        2%positive := {[ "self" := "/tmp" ]} ]}).
Proof.
  rewrite (X14_rebuild_from_as_dict demo_os 1%positive _ {[ "self" := "/tmp" ]}).
  - vm_compute. reflexivity.
  - reflexivity.
  - apply (bool_decide_eq_true_1 _). vm_compute. reflexivity.
Defined.

(** X15.  [user_defined] and [default] pass only the bindings they keep
    through [__setitem__]: [user_defined] returns a new table with exactly
    the bindings whose alias is not a default alias as soon as those bindings
    are valid, and [default] one with exactly the bindings whose alias is a
    default alias as soon as those are valid; the bindings left out need not
    be valid. *)
Theorem X15_partitions_check_kept_bindings (os : OS)
    (DEFAULT_ALIASES : gmap string string) (self : loc) (h : heap)
    (d : gmap string string) :
  h !! self = Some d →
  (valid_table os
     (filter (λ ap : string * string, ¬ is_Some (DEFAULT_ALIASES !! ap.1)) d) →
   user_defined os DEFAULT_ALIASES self h
   = (Return (fresh (dom h)),
      <[fresh (dom h) :=
          filter (λ ap : string * string,
                    ¬ is_Some (DEFAULT_ALIASES !! ap.1)) d]> h))
  ∧ (valid_table os
       (filter (λ ap : string * string, is_Some (DEFAULT_ALIASES !! ap.1)) d) →
     default_ os DEFAULT_ALIASES self h
     = (Return (fresh (dom h)),
        <[fresh (dom h) :=
            filter (λ ap : string * string,
                      is_Some (DEFAULT_ALIASES !! ap.1)) d]> h)).
Proof.
  intros Hd. split; intros Hval.
  - unfold user_defined, dict_items. rewrite bind_unfold.
    unfold deref. rewrite Hd. simpl.
    by apply (Aliases_of_valid os _ true h).
  - unfold default_, dict_items. rewrite bind_unfold.
    unfold deref. rewrite Hd. simpl.
    by apply (Aliases_of_valid os _ true h).
Qed.

Lemma X15_partitions_check_kept_bindings_witness :
  user_defined demo_os_later demo_defaults 1%positive
    {[ 1%positive := {[ "tmp" := "/tmp"; "e" := "/etc" ]} ]}
  = (Return 2%positive,
     {[ 1%positive := {[ "tmp" := "/tmp"; "e" := "/etc" ]};
        2%positive := {[ "e" := "/etc" ]} ]}).
Proof.
  destruct (X15_partitions_check_kept_bindings demo_os_later demo_defaults
              1%positive {[ 1%positive := {[ "tmp" := "/tmp"; "e" := "/etc" ]} ]}
              {[ "tmp" := "/tmp"; "e" := "/etc" ]}) as [Hu _]; [reflexivity|].
  rewrite Hu.
  - vm_compute. reflexivity.
  - apply (bool_decide_eq_true_1 _). vm_compute. reflexivity.
Defined.

(** ** [count] *)

Section count_more.

Context (os : OS).

Lemma counted_app (l1 l2 : list string) :
  (list_to_set (filter (λ p, path_exists os p = true) (expanded os (l1 ++ l2)))
     : gset string)
  = list_to_set (filter (λ p, path_exists os p = true) (expanded os l1))
    ∪ list_to_set (filter (λ p, path_exists os p = true) (expanded os l2)).
Proof.
  apply set_eq. intros p. rewrite elem_of_union, !elem_of_counted. split.
  - intros [(e & [He|He]%elem_of_app & Hp) Hex]; [left | right]; eauto.
  - intros [[(e & He & Hp) Hex]|[(e & He & Hp) Hex]];
      (split; [|done]); exists e; (split; [|done]); apply elem_of_app; auto.
Qed.

End count_more.

(** X16.  [count] of no expression is 0, and [count] never exceeds the number
    of paths that the expansions yield. *)
Theorem X16_count_bounds (os : OS) (items : list string) :
  count os [] = 0
  ∧ (count os items ≤ length (expanded os items))%nat.
Proof.
  split; [reflexivity|]. unfold count.
  etrans; [|apply (length_filter (λ p, path_exists os p = true))].
  generalize (filter (λ p, path_exists os p = true) (expanded os items)).
  intros l. induction l as [|p l IH]; [done|].
  rewrite list_to_set_cons. simpl.
  etrans; [apply (subseteq_size _ ({[p]} ∪ list_to_set l)); done|].
  rewrite size_union_alt, size_singleton.
  assert (size ((list_to_set l : gset string) ∖ {[p]})
          ≤ size (list_to_set l : gset string))%nat.
  { apply subseteq_size. apply subseteq_difference_l. done. }
  lia.
Qed.

(** X17.  Adding expressions never lowers the count, and the count of two
    lists together is at most the sum of their counts. *)
Theorem X17_count_append (os : OS) (l1 l2 : list string) :
  (count os l1 ≤ count os (l1 ++ l2)
   ∧ count os l2 ≤ count os (l1 ++ l2)
   ∧ count os (l1 ++ l2) ≤ count os l1 + count os l2)%nat.
Proof.
  unfold count. rewrite counted_app. split; [|split].
  - apply subseteq_size. apply union_subseteq_l.
  - apply subseteq_size. apply union_subseteq_r.
  - rewrite size_union_alt.
    match goal with
    | |- (_ + size (?Y ∖ ?X) ≤ _)%nat =>
        assert (size (Y ∖ X) ≤ size Y)%nat
          by (apply subseteq_size, subseteq_difference_l; done)
    end.
    lia.
Qed.

(** X18.  When every expression of the list expands to itself alone and
    exists, [count] is the number of distinct expressions in the list. *)
Theorem X18_count_existing_literals (os : OS) (items : list string) :
  (∀ p, p ∈ items →
     glob os (if has_tilde p then expanduser os p else p) = [p]
     ∧ path_exists os p = true) →
  count os items = size (list_to_set items : gset string).
Proof.
  intros Hlit. unfold count. f_equal. apply set_eq. intros p.
  rewrite elem_of_counted, elem_of_list_to_set. split.
  - intros [(e & He & Hp) _]. destruct (Hlit e He) as [Hglob _].
    rewrite Hglob in Hp. apply list_elem_of_singleton in Hp. by subst.
  - intros Hp. destruct (Hlit p Hp) as [Hglob Hex]. split; [|done].
    exists p. split; [done|]. rewrite Hglob. apply list_elem_of_here.
Qed.

Lemma X18_count_existing_literals_witness :
  count demo_os ["/tmp"; "/etc"; "/tmp"; "/bin/ls"; "/etc"] = 3.
Proof.
  rewrite X18_count_existing_literals.
  - vm_compute. reflexivity.
  - intros p Hp. rewrite !elem_of_cons, elem_of_nil in Hp.
    decompose [or] Hp; subst; try contradiction; split; reflexivity.
Defined.

(** X19.  [count] consults neither [isdir] nor [access], and it calls
    [expanduser] only for expressions that contain a tilde: for a list of
    expressions without tilde, two systems with the same [glob] and the same
    [exists] give the same count. *)
Theorem X19_count_tilde_free (items : list string)
    (expanduser1 expanduser2 : string → string)
    (isdir1 isdir2 access1 access2 path_exists0 : string → bool)
    (glob0 : string → list string) :
  Forall (λ p, has_tilde p = false) items →
  count (MkOS expanduser1 isdir1 access1 path_exists0 glob0) items
  = count (MkOS expanduser2 isdir2 access2 path_exists0 glob0) items.
Proof.
  intros Hfree. unfold count. f_equal. apply set_eq. intros p.
  rewrite !elem_of_counted. simpl.
  rewrite Forall_forall in Hfree.
  split; intros [(e & He & Hp) Hex]; (split; [|done]); exists e;
    (split; [done|]); by rewrite (Hfree e He) in *.
Qed.

Lemma X19_count_tilde_free_witness :
  count demo_os ["/*"; "/nowhere"]
  = count (MkOS (λ _, "/elsewhere") (λ _, false) (λ _, false)
             (path_exists demo_os) (glob demo_os)) ["/*"; "/nowhere"].
Proof.
  apply (X19_count_tilde_free ["/*"; "/nowhere"]).
  repeat constructor.
Defined.
